(** * An LRU-cache wrapper: [lru_cache.py]

    A shallow embedding of [lru_cache], its closure [inner], [cache_info]
    and the helper [add_to_cache], followed by the properties of the
    wrapper: hit and miss behaviour, eviction order, the size bound, the
    counters, and what happens when the wrapped function raises.

    Python integers are [Z].  The [OrderedDict] is an association list in
    iteration order: the head is the entry [popitem(last=False)] removes
    (least recently used), the last element is the entry [move_to_end]
    puts there (most recently used).  Keys are values of a type with
    decidable equality, as hashable Python values with a lawful [__eq__]
    are.  Statements that mutate the closure cells or the dictionary, and
    that may raise, live in a small state-and-exception monad; the [for]
    loop of [inner] is a loop whose body may [return].  The wrapped
    function is a parameter: it may return or raise, and may have state
    of its own, but it does not call the wrapper back. *)

From Stdlib Require Import ZArith Lia.
From stdpp Require Import base list.

(** ** Exceptions and the state-and-exception monad *)

(** What a call can raise: the [KeyError] of the [OrderedDict] methods,
    or whatever the wrapped function raised (a value of type [E]). *)
Inductive exn (E : Type) : Type :=
| KeyError
| FuncError (e : E).
Arguments KeyError {E}.
Arguments FuncError {E} e.

Inductive result (E A : Type) : Type :=
| Ok (a : A)
| Raise (x : exn E).
Arguments Ok {E A} a.
Arguments Raise {E A} x.

(** A statement run from state [s] ends normally or by an exception;
    either way the mutations done so far stay. *)
Definition M (E S A : Type) : Type := S → result E A * S.

Section Monad.
Context {E S : Type}.

Definition ret {A} (a : A) : M E S A := λ s, (Ok a, s).

Definition raise {A} (x : exn E) : M E S A := λ s, (Raise x, s).

Definition bind {A B} (m : M E S A) (k : A → M E S B) : M E S B :=
  λ s, match m s with
       | (Ok a, s') => k a s'
       | (Raise x, s') => (Raise x, s')
       end.

Definition get : M E S S := λ s, (Ok s, s).

Definition modify (f : S → S) : M E S unit := λ s, (Ok tt, f s).
End Monad.

Notation "'let*' x ':=' m 'in' k" := (bind m (λ x, k))
  (at level 10, x pattern, m at level 100, k at level 200, only parsing).
Notation "m1 '>>;' m2" := (bind m1 (λ _, m2))
  (at level 100, m2 at level 200, right associativity, only parsing).

(** What one run of a loop body asks for: the next iteration, or
    leaving the function by [return]. *)
Inductive flow (R : Type) : Type :=
| Next
| Return (r : R).
Arguments Next {R}.
Arguments Return {R} r.

(** [for x in xs: body] *)
Fixpoint for_each {E S A R} (xs : list A) (body : A → M E S (flow R))
  : M E S (flow R) :=
  match xs with
  | [] => ret Next
  | x :: xs' =>
      let* c := body x in
      match c with
      | Next => for_each xs' body
      | Return r => ret (Return r)
      end
  end.

(** ** [collections.OrderedDict], the part the program uses *)

Section OrderedDict.
Context {K V : Type} `{EqDecision K}.

Definition odict : Type := list (K * V).

(** [key in d] *)
Fixpoint od_mem (key : K) (d : odict) : bool :=
  match d with
  | [] => false
  | (k, _) :: d' => if decide (key = k) then true else od_mem key d'
  end.

(** The value stored under [key], if any. *)
Fixpoint od_lookup (key : K) (d : odict) : option V :=
  match d with
  | [] => None
  | (k, v) :: d' => if decide (key = k) then Some v else od_lookup key d'
  end.

(** [d[key] = value]: an existing key keeps its position and gets the
    new value, a new key goes to the end. *)
Fixpoint od_assign (key : K) (value : V) (d : odict) : odict :=
  match d with
  | [] => [(key, value)]
  | (k, v) :: d' =>
      if decide (key = k) then (k, value) :: d'
      else (k, v) :: od_assign key value d'
  end.

(** Unlinks the entry of [key]. *)
Fixpoint od_unlink (key : K) (d : odict) : odict :=
  match d with
  | [] => []
  | (k, v) :: d' =>
      if decide (key = k) then d' else (k, v) :: od_unlink key d'
  end.

Definition od_keys (d : odict) : list K := d.*1.

(** The keys that come after [key] in the order of [d]: those used more
    recently than [key].  Empty when [key] is not in [d]. *)
Fixpoint od_newer (key : K) (d : odict) : list K :=
  match d with
  | [] => []
  | (k, _) :: d' => if decide (key = k) then od_keys d' else od_newer key d'
  end.

Section Methods.
Context {E : Type}.

Definition od_contains (key : K) : M E odict bool :=
  let* d := get in ret (od_mem key d).

(** [d[key]], which raises [KeyError] for a missing key. *)
Definition od_getitem (key : K) : M E odict V :=
  let* d := get in
  match od_lookup key d with
  | Some v => ret v
  | None => raise KeyError
  end.

Definition od_setitem (key : K) (value : V) : M E odict unit :=
  modify (od_assign key value).

(** [d.move_to_end(key)], which raises [KeyError] for a missing key. *)
Definition od_move_to_end (key : K) : M E odict unit :=
  let* d := get in
  match od_lookup key d with
  | Some v => modify (λ _, od_unlink key d ++ [(key, v)])
  | None => raise KeyError
  end.

(** [len(d)] *)
Definition od_len : M E odict Z :=
  let* d := get in ret (Z.of_nat (length d)).

(** [d.popitem(last)], which raises [KeyError] on an empty
    dictionary; [last=False] takes the first entry. *)
Definition od_popitem (last : bool) : M E odict (K * V) :=
  let* d := get in
  if last then
    match reverse d with
    | [] => raise KeyError
    | kv :: r => modify (λ _, reverse r) >>; ret kv
    end
  else
    match d with
    | [] => raise KeyError
    | kv :: d' => modify (λ _, d') >>; ret kv
    end.

(** [add_to_cache(maxsize, cache, key, value)]; the dictionary passed
    as [cache] is the state of the monad. *)
Definition add_to_cache (maxsize : Z) (key : K) (value : V)
  : M E odict unit :=
  od_setitem key value >>;
  od_move_to_end key >>;
  let* n := od_len in
  if (n >? maxsize)%Z then
    od_popitem false >>; ret tt
  else ret tt.
End Methods.

(** What the last two lines of [add_to_cache] leave of a dictionary [d]:
    [d] without its first entry when it has more than [maxsize] entries.
    Used to state what a call does. *)
Definition od_trim (maxsize : Z) (d : odict) : odict :=
  if (Z.of_nat (length d) >? maxsize)%Z then tail d else d.
End OrderedDict.
Arguments odict : clear implicits.

(** ** The wrapper *)

Section LruCache.
Context {K V E W : Type} `{EqDecision K}.

(** The wrapped function.  It gets the positional arguments, returns a
    value or raises, and may read and change a world [W] of its own; it
    does not call the wrapper back. *)
Variable func : list K → W → result E V * W.

(** The cells of the closure ([maxsize], [cache], [hits], [misses]),
    the world of the wrapped function, and a log of the argument
    tuples [func] was called with, kept to count its invocations. *)
Record state : Type := mk_state {
  maxsize : Z;
  cache : odict K V;
  hits : Z;
  misses : Z;
  world : W;
  calls : list (list K)
}.

Definition set_cache (d : odict K V) (st : state) : state :=
  mk_state (maxsize st) d (hits st) (misses st) (world st) (calls st).

Definition set_hits (n : Z) (st : state) : state :=
  mk_state (maxsize st) (cache st) n (misses st) (world st) (calls st).

Definition set_misses (n : Z) (st : state) : state :=
  mk_state (maxsize st) (cache st) (hits st) n (world st) (calls st).

(** A statement on the dictionary, run on the closure's [cache]. *)
Definition on_cache {A} (m : M E (odict K V) A) : M E state A :=
  λ st, let '(r, d) := m (cache st) in (r, set_cache d st).

(** The call of [func] on all of [args]. *)
Definition call_func (args : list K) : M E state V :=
  λ st, let '(r, w) := func args (world st) in
        (r, mk_state (maxsize st) (cache st) (hits st) (misses st) w
                     (calls st ++ [args])).

(** The body of the loop of [inner], for one [key] of [args]. *)
Definition inner_body (args : list K) (key : K) : M E state (flow V) :=
  let* present := on_cache (od_contains key) in
  if negb present then
    (let* st := get in modify (set_misses (misses st + 1))) >>;
    let* result := call_func args in
    (let* st := get in on_cache (add_to_cache (maxsize st) key result)) >>;
    ret (Return result)
  else
    (let* st := get in modify (set_hits (hits st + 1))) >>;
    let* result := on_cache (od_getitem key) in
    (let* st := get in on_cache (add_to_cache (maxsize st) key result)) >>;
    ret (Return result).

(** The closure [inner], called on [args]; the result [None] is the
    [None] a Python function returns when it ends without [return]. *)
Definition inner (args : list K) : M E state (option V) :=
  let* c := for_each args (inner_body args) in
  match c with
  | Return result => ret (Some result)
  | Next => ret None
  end.

(** [cache_info()]: [CacheInfo(hits, misses, maxsize, currsize)] *)
Definition cache_info (st : state) : Z * Z * Z * Z :=
  (hits st, misses st, maxsize st, Z.of_nat (length (cache st))).

(** The state a call leaves, and the states after a sequence of calls
    (a call that raised leaves its state like any other). *)
Definition after (args : list K) (st : state) : state :=
  (inner args st).2.

Definition run (argss : list (list K)) (st : state) : state :=
  foldl (λ s args, after args s) st argss.
End LruCache.

(** [lru_cache(func, maxsize)], called in world [w]: the state the
    returned closure [inner] starts from.  The closure keeps [func] and
    [maxsize]; the construction checks neither and calls neither. *)
Definition lru_cache {K V E W : Type}
    (func : list K → W → result E V * W) (maxsize : Z) (w : W)
  : result E (state (K:=K) (V:=V) (W:=W)) :=
  Ok (mk_state maxsize [] 0 0 w []).

(** The states a wrapper can be in: the one [lru_cache] creates, and
    those its calls lead to. *)
Inductive reachable {K V E W : Type} `{EqDecision K}
  (func : list K → W → result E V * W) : state (K:=K) (V:=V) (W:=W) → Prop :=
| reachable_new maxsize w st :
    lru_cache func maxsize w = Ok st → reachable func st
| reachable_call args st :
    reachable func st → reachable func (after func args st).

(** ** A concrete wrapped function, for examples

    It adds 100 to the sum of its arguments, raises on a first argument
    7, and counts its invocations in its world. *)
Definition demo_func (args : list nat) (w : nat) : result unit nat * nat :=
  match args with
  | 7%nat :: _ => (Raise (FuncError tt), S w)
  | _ => (Ok (100 + sum_list args)%nat, S w)
  end.

Definition demo_new (maxsize : Z) : state (K:=nat) (V:=nat) (W:=nat) :=
  mk_state maxsize [] 0 0 0%nat [].

(** * Properties *)

(** ** The dictionary operations *)

Section OrderedDictFacts.
Context {K V : Type} `{EqDecision K}.
Implicit Types (key k : K) (value v : V) (d : odict K V).

Lemma od_mem_false_lookup key d :
  od_mem key d = false ↔ od_lookup key d = None.
Proof.
  induction d as [|[k v] d IH]; simpl; [done|].
  case_decide; [split; discriminate | exact IH].
Qed.

Lemma od_lookup_Some_mem key v d :
  od_lookup key d = Some v → od_mem key d = true.
Proof.
  intros Hl. destruct (od_mem key d) eqn:Hm; [done|].
  apply od_mem_false_lookup in Hm. congruence.
Qed.

Lemma od_mem_true_lookup key d :
  od_mem key d = true → ∃ v, od_lookup key d = Some v.
Proof.
  intros Hm. destruct (od_lookup key d) as [v|] eqn:Hl; [by exists v|].
  apply od_mem_false_lookup in Hl. congruence.
Qed.

Lemma od_mem_keys key d : od_mem key d = true ↔ key ∈ od_keys d.
Proof.
  unfold od_keys. induction d as [|[k v] d IH]; simpl.
  - split; [discriminate | by intros ?%elem_of_nil].
  - rewrite elem_of_cons. case_decide; [tauto|].
    rewrite IH. split; [tauto | by intros [?|?]].
Qed.

Lemma od_mem_false_keys key d : od_mem key d = false ↔ key ∉ od_keys d.
Proof.
  rewrite <- od_mem_keys. destruct (od_mem key d); split; congruence.
Qed.

Lemma od_assign_fresh key value d :
  od_mem key d = false → od_assign key value d = d ++ [(key, value)].
Proof.
  induction d as [|[k v] d IH]; simpl; [done|].
  case_decide; [discriminate|]. intros Hm. by rewrite IH.
Qed.

Lemma od_assign_same key v d :
  od_lookup key d = Some v → od_assign key v d = d.
Proof.
  induction d as [|[k v'] d IH]; simpl; [done|].
  case_decide; [congruence|]. intros Hl. by rewrite IH.
Qed.

Lemma od_lookup_assign key value d :
  od_lookup key (od_assign key value d) = Some value.
Proof.
  induction d as [|[k v] d IH]; simpl.
  - by rewrite decide_True.
  - case_decide; simpl; [by rewrite decide_True | by rewrite decide_False].
Qed.

Lemma od_unlink_fresh key value d :
  od_mem key d = false → od_unlink key (d ++ [(key, value)]) = d.
Proof.
  induction d as [|[k v] d IH]; simpl.
  - by rewrite decide_True.
  - case_decide; [discriminate|]. intros Hm. by rewrite IH.
Qed.

Lemma length_od_unlink key d :
  od_mem key d = true → S (length (od_unlink key d)) = length d.
Proof.
  induction d as [|[k v] d IH]; simpl; [discriminate|].
  case_decide; simpl; [done|]. intros Hm. by rewrite IH.
Qed.

Lemma od_keys_unlink_subseteq key d : od_keys (od_unlink key d) ⊆ od_keys d.
Proof.
  unfold od_keys. induction d as [|[k v] d IH]; simpl; [done|].
  intros x. case_decide; simpl; rewrite !elem_of_cons.
  - tauto.
  - intros [?|?]; [tauto | right; by apply IH].
Qed.

Lemma od_keys_unlink_NoDup key d :
  NoDup (od_keys d) →
  NoDup (od_keys (od_unlink key d)) ∧ key ∉ od_keys (od_unlink key d).
Proof.
  unfold od_keys. induction d as [|[k v] d IH]; simpl.
  - intros _. split; [constructor | by intros ?%elem_of_nil].
  - intros [Hk Hd]%NoDup_cons. case_decide; simpl.
    + subst. done.
    + destruct (IH Hd) as [IH1 IH2]. split.
      * apply NoDup_cons. split; [|done].
        intros Hin. apply Hk. by apply (od_keys_unlink_subseteq key d).
      * rewrite elem_of_cons. tauto.
Qed.

(** [add_to_cache] never raises: it leaves [key] with [value] at the
    end, and drops the first entry when the dictionary got too long. *)
Lemma add_to_cache_eq {E} maxsize key value d :
  add_to_cache (E:=E) maxsize key value d =
  (Ok tt,
   od_trim maxsize (od_unlink key (od_assign key value d) ++ [(key, value)])).
Proof.
  unfold add_to_cache, od_setitem, od_move_to_end, od_len, od_popitem.
  unfold bind, modify, get, ret, od_trim. simpl.
  rewrite od_lookup_assign.
  destruct (_ >? _)%Z; [|done].
  by destruct (od_unlink key (od_assign key value d) ++ [(key, value)])
    eqn:Heq; [destruct (od_unlink _ _) |].
Qed.

Lemma add_to_cache_fresh {E} maxsize key value d :
  od_mem key d = false →
  add_to_cache (E:=E) maxsize key value d =
  (Ok tt, od_trim maxsize (d ++ [(key, value)])).
Proof.
  intros Hm. rewrite add_to_cache_eq, od_assign_fresh by done.
  by rewrite od_unlink_fresh.
Qed.

Lemma add_to_cache_resident {E} maxsize key v d :
  od_lookup key d = Some v →
  add_to_cache (E:=E) maxsize key v d =
  (Ok tt, od_trim maxsize (od_unlink key d ++ [(key, v)])).
Proof. intros Hl. by rewrite add_to_cache_eq, od_assign_same. Qed.

Lemma length_od_trim maxsize d :
  (Z.of_nat (length d) ≤ Z.max 0 maxsize + 1)%Z →
  (Z.of_nat (length (od_trim maxsize d)) ≤ Z.max 0 maxsize)%Z.
Proof.
  unfold od_trim. destruct (Z.gtb_spec (Z.of_nat (length d)) maxsize).
  - destruct d; simpl in *; lia.
  - lia.
Qed.
Lemma od_lookup_app key d1 d2 :
  od_lookup key (d1 ++ d2) =
  match od_lookup key d1 with
  | Some v => Some v
  | None => od_lookup key d2
  end.
Proof.
  induction d1 as [|[k v] d1 IH]; simpl; [done|]. by case_decide.
Qed.

Lemma od_lookup_moved key v d :
  NoDup (od_keys d) → od_lookup key (od_unlink key d ++ [(key, v)]) = Some v.
Proof.
  intros [_ Hnotin]%(od_keys_unlink_NoDup key).
  apply od_mem_false_keys, od_mem_false_lookup in Hnotin.
  rewrite od_lookup_app, Hnotin. simpl. by rewrite decide_True.
Qed.

Lemma od_trim_id maxsize d :
  (Z.of_nat (length d) ≤ maxsize)%Z → od_trim maxsize d = d.
Proof.
  intros Hle. unfold od_trim.
  by destruct (Z.gtb_spec (Z.of_nat (length d)) maxsize); [lia|].
Qed.

Lemma od_keys_trim_subseteq maxsize d : od_keys (od_trim maxsize d) ⊆ od_keys d.
Proof.
  unfold od_trim, od_keys. destruct (_ >? _)%Z; [|done].
  destruct d; simpl; [done|]. intros x Hx. rewrite elem_of_cons. tauto.
Qed.

Lemma length_od_moved key v d :
  od_mem key d = true → length (od_unlink key d ++ [(key, v)]) = length d.
Proof.
  intros Hm%length_od_unlink. rewrite length_app. simpl. lia.
Qed.
End OrderedDictFacts.

(** ** One call of the wrapper *)

Section InnerFacts.
Context {K V E W : Type} `{EqDecision K}.
Variable func : list K → W → result E V * W.
Implicit Types (key k : K) (args rest : list K) (v : V) (w : W).
Implicit Types (st : state (K:=K) (V:=V) (W:=W)).

Lemma inner_body_miss args key st v w' :
  od_mem key (cache st) = false →
  func args (world st) = (Ok v, w') →
  inner_body func args key st =
  (Ok (Return v),
   mk_state (maxsize st) (od_trim (maxsize st) (cache st ++ [(key, v)]))
            (hits st) (misses st + 1) w' (calls st ++ [args])).
Proof.
  intros Hm Hf.
  unfold inner_body, on_cache, od_contains, call_func, bind, get, modify, ret.
  simpl. rewrite Hm. simpl. rewrite Hf. simpl.
  by rewrite add_to_cache_fresh.
Qed.

Lemma inner_body_raise args key st x w' :
  od_mem key (cache st) = false →
  func args (world st) = (Raise x, w') →
  inner_body func args key st =
  (Raise x,
   mk_state (maxsize st) (cache st) (hits st) (misses st + 1) w'
            (calls st ++ [args])).
Proof.
  intros Hm Hf.
  unfold inner_body, on_cache, od_contains, call_func, bind, get, modify, ret.
  simpl. rewrite Hm. simpl. by rewrite Hf.
Qed.

Lemma inner_body_hit args key st v :
  od_lookup key (cache st) = Some v →
  inner_body func args key st =
  (Ok (Return v),
   mk_state (maxsize st)
            (od_trim (maxsize st) (od_unlink key (cache st) ++ [(key, v)]))
            (hits st + 1) (misses st) (world st) (calls st)).
Proof.
  intros Hl.
  unfold inner_body, on_cache, od_contains, od_getitem, bind, get, modify, ret.
  simpl. rewrite (od_lookup_Some_mem _ _ _ Hl). simpl. rewrite Hl. simpl.
  by rewrite add_to_cache_resident.
Qed.

(** The loop body never falls through to a next iteration. *)
Lemma inner_body_not_Next args key st st' :
  inner_body func args key st ≠ (Ok Next, st').
Proof.
  destruct (od_mem key (cache st)) eqn:Hm.
  - destruct (od_mem_true_lookup _ _ Hm) as [v Hl].
    by rewrite (inner_body_hit _ _ _ _ Hl).
  - destruct (func args (world st)) as [[v|x] w'] eqn:Hf.
    + by rewrite (inner_body_miss _ _ _ _ _ Hm Hf).
    + by rewrite (inner_body_raise _ _ _ _ _ Hm Hf).
Qed.

Lemma inner_nil st : inner func [] st = (Ok None, st).
Proof. done. Qed.

(** With arguments, [inner] is the loop body run once, on the first. *)
Lemma inner_cons key rest st :
  inner func (key :: rest) st =
  match inner_body func (key :: rest) key st with
  | (Ok (Return r), st') => (Ok (Some r), st')
  | (Ok Next, st') => (Ok None, st')
  | (Raise x, st') => (Raise x, st')
  end.
Proof.
  unfold inner. simpl. unfold bind at 1 2.
  destruct (inner_body func (key :: rest) key st) as [[[|r]|x] st'] eqn:Hb.
  - by apply inner_body_not_Next in Hb.
  - done.
  - done.
Qed.

Lemma inner_miss key rest st v w' :
  od_mem key (cache st) = false →
  func (key :: rest) (world st) = (Ok v, w') →
  inner func (key :: rest) st =
  (Ok (Some v),
   mk_state (maxsize st) (od_trim (maxsize st) (cache st ++ [(key, v)]))
            (hits st) (misses st + 1) w' (calls st ++ [key :: rest])).
Proof. intros Hm Hf. by rewrite inner_cons, (inner_body_miss _ _ _ _ _ Hm Hf). Qed.

Lemma inner_raise key rest st x w' :
  od_mem key (cache st) = false →
  func (key :: rest) (world st) = (Raise x, w') →
  inner func (key :: rest) st =
  (Raise x,
   mk_state (maxsize st) (cache st) (hits st) (misses st + 1) w'
            (calls st ++ [key :: rest])).
Proof. intros Hm Hf. by rewrite inner_cons, (inner_body_raise _ _ _ _ _ Hm Hf). Qed.

Lemma inner_hit key rest st v :
  od_lookup key (cache st) = Some v →
  inner func (key :: rest) st =
  (Ok (Some v),
   mk_state (maxsize st)
            (od_trim (maxsize st) (od_unlink key (cache st) ++ [(key, v)]))
            (hits st + 1) (misses st) (world st) (calls st)).
Proof. intros Hl. by rewrite inner_cons, (inner_body_hit _ _ _ _ Hl). Qed.
End InnerFacts.

(** ** Invariants of a call and of a sequence of calls *)

Section RunFacts.
Context {K V E W : Type} `{EqDecision K}.
Variable func : list K → W → result E V * W.
Implicit Types (key k : K) (args rest : list K) (v : V) (w : W).
Implicit Types (st : state (K:=K) (V:=V) (W:=W)).
Implicit Types (argss : list (list K)).

(** The four ways a call can go: no argument, a hit, a miss whose
    computation returns, a miss whose computation raises. *)
Ltac call_cases args st :=
  let key := fresh "key" in
  let rest := fresh "rest" in
  let Hm := fresh "Hm" in
  let Hl := fresh "Hl" in
  let Hf := fresh "Hf" in
  let v := fresh "v" in
  let x := fresh "x" in
  let w' := fresh "w'" in
  unfold after;
  destruct args as [|key rest];
  [ rewrite inner_nil
  | destruct (od_mem key (cache st)) eqn:Hm;
    [ destruct (od_mem_true_lookup _ _ Hm) as [v Hl];
      rewrite (inner_hit func _ rest _ _ Hl)
    | destruct (func (key :: rest) (world st)) as [[v|x] w'] eqn:Hf;
      [ rewrite (inner_miss func _ _ _ _ _ Hm Hf)
      | rewrite (inner_raise func _ _ _ _ _ Hm Hf) ] ] ];
  simpl.

Lemma after_maxsize args st : maxsize (after func args st) = maxsize st.
Proof. by call_cases args st. Qed.

Lemma after_size args st :
  (Z.of_nat (length (cache st)) ≤ Z.max 0 (maxsize st))%Z →
  (Z.of_nat (length (cache (after func args st))) ≤ Z.max 0 (maxsize st))%Z.
Proof.
  intros Hsz. call_cases args st; try done.
  - apply length_od_trim. rewrite length_app. simpl.
    apply length_od_unlink in Hm. lia.
  - apply length_od_trim. rewrite length_app. simpl. lia.
Qed.

Lemma od_trim_NoDup maxsize (d : odict K V) :
  NoDup (od_keys d) → NoDup (od_keys (od_trim maxsize d)).
Proof.
  unfold od_trim, od_keys. destruct (_ >? _)%Z; [|done].
  destruct d; simpl; [done|]. by intros [_ ?]%NoDup_cons.
Qed.

Lemma after_NoDup args st :
  NoDup (od_keys (cache st)) → NoDup (od_keys (cache (after func args st))).
Proof.
  intros Hnd. call_cases args st; try done; apply od_trim_NoDup.
  - destruct (od_keys_unlink_NoDup key _ Hnd) as [Hnd' Hnotin].
    unfold od_keys in *. rewrite fmap_app. simpl.
    apply NoDup_app. split_and!; [done | | apply NoDup_singleton].
    intros k Hk ->%list_elem_of_singleton. done.
  - apply od_mem_false_keys in Hm.
    unfold od_keys in *. rewrite fmap_app. simpl.
    apply NoDup_app. split_and!; [done | | apply NoDup_singleton].
    intros k Hk ->%list_elem_of_singleton. done.
Qed.

(** A call with a key counts once, as a hit or as a miss; a call without
    arguments does not count. *)
Lemma after_counters args st :
  (hits st ≤ hits (after func args st))%Z ∧
  (misses st ≤ misses (after func args st))%Z ∧
  (hits (after func args st) + misses (after func args st) =
   hits st + misses st + (if args is [] then 0 else 1))%Z.
Proof. call_cases args st; lia. Qed.

Lemma run_app argss1 argss2 st :
  run func (argss1 ++ argss2) st = run func argss2 (run func argss1 st).
Proof. apply foldl_app. Qed.

Lemma run_maxsize argss st : maxsize (run func argss st) = maxsize st.
Proof.
  revert st. induction argss as [|args argss IH]; intros st; [done|].
  simpl. by rewrite IH, after_maxsize.
Qed.

Lemma run_size argss st :
  (Z.of_nat (length (cache st)) ≤ Z.max 0 (maxsize st))%Z →
  (Z.of_nat (length (cache (run func argss st))) ≤ Z.max 0 (maxsize st))%Z.
Proof.
  revert st. induction argss as [|args argss IH]; intros st Hsz; [done|].
  simpl. rewrite <- (after_maxsize args st). apply IH.
  rewrite after_maxsize. by apply after_size.
Qed.

Lemma run_NoDup argss st :
  NoDup (od_keys (cache st)) → NoDup (od_keys (cache (run func argss st))).
Proof.
  revert st. induction argss as [|args argss IH]; intros st Hnd; [done|].
  simpl. by apply IH, after_NoDup.
Qed.

Lemma run_monotone argss st :
  (hits st ≤ hits (run func argss st))%Z ∧
  (misses st ≤ misses (run func argss st))%Z.
Proof.
  revert st. induction argss as [|args argss IH]; intros st; [done|].
  simpl. destruct (IH (after func args st)) as [? ?].
  destruct (after_counters args st) as (? & ? & _). lia.
Qed.

(** The counters add up to the number of calls that had a key. *)
Lemma run_count argss st :
  (hits (run func argss st) + misses (run func argss st) =
   hits st + misses st + Z.of_nat (length (filter (λ a, a ≠ []) argss)))%Z.
Proof.
  revert st. induction argss as [|args argss IH]; intros st; [simpl; lia|].
  simpl. rewrite IH. destruct (after_counters args st) as (_ & _ & ->).
  destruct args; [rewrite filter_cons_False by naive_solver
                 |rewrite filter_cons_True by done]; simpl; lia.
Qed.

(** Every state a wrapper reaches holds distinct keys, not more of them
    than the capacity. *)
Lemma reachable_inv st :
  reachable func st →
  NoDup (od_keys (cache st)) ∧
  (Z.of_nat (length (cache st)) ≤ Z.max 0 (maxsize st))%Z.
Proof.
  induction 1 as [maxsize w st Hnew | args st _ [IH1 IH2]].
  - injection Hnew as <-. simpl. split; [constructor | lia].
  - split; [by apply after_NoDup|].
    rewrite after_maxsize. by apply after_size.
Qed.

Lemma reachable_run argss st :
  reachable func st → reachable func (run func argss st).
Proof.
  revert st. induction argss as [|args argss IH]; intros st Hr; [done|].
  simpl. apply IH. by constructor.
Qed.
(** A hit in a dictionary within its capacity evicts nothing. *)
Lemma inner_hit_fits key rest st v :
  (Z.of_nat (length (cache st)) ≤ maxsize st)%Z →
  od_lookup key (cache st) = Some v →
  inner func (key :: rest) st =
  (Ok (Some v),
   mk_state (maxsize st) (od_unlink key (cache st) ++ [(key, v)])
            (hits st + 1) (misses st) (world st) (calls st)).
Proof.
  intros Hsz Hl. rewrite (inner_hit func _ _ _ _ Hl), od_trim_id; [done|].
  by rewrite length_od_moved by by eapply od_lookup_Some_mem.
Qed.

(** Calls for a resident key, one after the other: all are hits. *)
Lemma run_resident key v argss st :
  NoDup (od_keys (cache st)) →
  (Z.of_nat (length (cache st)) ≤ maxsize st)%Z →
  od_lookup key (cache st) = Some v →
  Forall (λ args, head args = Some key) argss →
  length (cache (run func argss st)) = length (cache st) ∧
  calls (run func argss st) = calls st ∧
  world (run func argss st) = world st ∧
  od_lookup key (cache (run func argss st)) = Some v ∧
  hits (run func argss st) = (hits st + Z.of_nat (length argss))%Z ∧
  misses (run func argss st) = misses st.
Proof.
  intros Hnd Hsz Hl Hall. revert st Hnd Hsz Hl.
  induction Hall as [|args argss Hhd _ IH]; intros st Hnd Hsz Hl.
  { simpl. split_and!; try done. lia. }
  destruct args as [|k rest]; [done|]. injection Hhd as ->.
  pose proof (od_lookup_Some_mem _ _ _ Hl) as Hm.
  pose proof (inner_hit_fits _ rest _ _ Hsz Hl) as Hcall.
  simpl. unfold after at 1 2 3 4 5 6. rewrite Hcall. simpl.
  match goal with
  | |- context [run func argss ?s] =>
      destruct (IH s) as (IH1 & IH2 & IH3 & IH4 & IH5 & IH6); simpl
  end.
  - apply (after_NoDup (key :: rest)) in Hnd.
    unfold after in Hnd. rewrite Hcall in Hnd. exact Hnd.
  - rewrite length_od_moved by done. exact Hsz.
  - by apply od_lookup_moved.
  - rewrite IH1, IH2, IH3, IH4, IH5, IH6. simpl.
    rewrite length_od_moved by done. split_and!; try done. lia.
Qed.
(** With a capacity of zero or less the wrapper keeps nothing. *)
Lemma reachable_nonpositive st :
  reachable func st → (maxsize st ≤ 0)%Z → cache st = [].
Proof.
  intros [_ Hsz]%reachable_inv Hle.
  destruct (cache st); [done | simpl in Hsz; lia].
Qed.
End RunFacts.

(** * The wrapper's behaviour *)

Section Behaviour.
Context {K V E W : Type} `{EqDecision K}.
Variable func : list K → W → result E V * W.
Implicit Types (key k : K) (args rest : list K) (v : V) (w : W).
Implicit Types (st : state (K:=K) (V:=V) (W:=W)).
Implicit Types (argss : list (list K)).

(** Evaluates membership tests on a dictionary whose keys are known to
    differ. *)
Ltac key_tests :=
  simpl;
  repeat first
    [ rewrite decide_True by done
    | rewrite decide_False by congruence ];
  simpl.

(** C1: with capacity 2 and three distinct keys [A], [B], [C], the calls
    on [A], [B], [A], [C], [B] are a miss, a miss, a hit, a miss and a
    miss (the computation runs on all but the third, which returns the
    stored value); the fourth call evicts [B] and keeps [A]; and the
    statistics after the calls are (0,1,2,1), (0,2,2,2), (1,2,2,2),
    (1,3,2,2) and (1,4,2,2). *)
Theorem lru_eviction_order (A B C : K) (vA vB vC vB' : V)
    (w0 w1 w2 w3 w4 : W) st0 :
  A ≠ B → A ≠ C → B ≠ C →
  lru_cache func 2 w0 = Ok st0 →
  func [A] w0 = (Ok vA, w1) →
  func [B] w1 = (Ok vB, w2) →
  func [C] w2 = (Ok vC, w3) →
  func [B] w3 = (Ok vB', w4) →
  ∃ s1 s2 s3 s4 s5,
    inner func [A] st0 = (Ok (Some vA), s1) ∧
    inner func [B] s1 = (Ok (Some vB), s2) ∧
    inner func [A] s2 = (Ok (Some vA), s3) ∧
    inner func [C] s3 = (Ok (Some vC), s4) ∧
    inner func [B] s4 = (Ok (Some vB'), s5) ∧
    cache_info s1 = (0, 1, 2, 1)%Z ∧
    cache_info s2 = (0, 2, 2, 2)%Z ∧
    cache_info s3 = (1, 2, 2, 2)%Z ∧
    cache_info s4 = (1, 3, 2, 2)%Z ∧
    cache_info s5 = (1, 4, 2, 2)%Z ∧
    calls s1 = [[A]] ∧
    calls s2 = [[A]; [B]] ∧
    calls s3 = [[A]; [B]] ∧
    calls s4 = [[A]; [B]; [C]] ∧
    calls s5 = [[A]; [B]; [C]; [B]] ∧
    cache s3 = [(B, vB); (A, vA)] ∧
    cache s4 = [(A, vA); (C, vC)] ∧
    od_mem B (cache s4) = false ∧
    od_mem A (cache s4) = true.
Proof.
  intros HAB HAC HBC Hnew HfA HfB HfC HfB'. injection Hnew as <-.
  eexists _, _, _, _, _.
  split; [by apply inner_miss|]. simpl.
  split; [apply inner_miss; [by key_tests | exact HfB]|]. simpl.
  split; [apply inner_hit; by key_tests|]. key_tests.
  split; [apply inner_miss; [by key_tests | exact HfC]|]. simpl.
  split; [apply inner_miss; [by key_tests | exact HfB']|]. simpl.
  by key_tests.
Qed.
(** C2: a cache built with a positive capacity never holds more entries
    than its capacity: whatever the calls made so far (with any
    arguments, returning or raising), the [currsize] that [cache_info]
    reports, which is the length of the dictionary, is at most the
    [maxsize] it reports. *)
Theorem capacity_invariant (maxsize : Z) (w : W) st0 argss :
  (0 < maxsize)%Z →
  lru_cache func maxsize w = Ok st0 →
  ∃ h m currsize,
    cache_info (run func argss st0) = (h, m, maxsize, currsize) ∧
    currsize = Z.of_nat (length (cache (run func argss st0))) ∧
    (currsize ≤ maxsize)%Z.
Proof.
  intros Hpos Hnew. injection Hnew as <-.
  eexists _, _, _. unfold cache_info. rewrite run_maxsize. simpl.
  split_and!; [done | done |].
  pose proof (run_size func argss (mk_state maxsize [] 0 0 w [])) as Hsz.
  simpl in Hsz. lia.
Qed.

(** C3: a call for a key that is not resident, whose computation returns
    [v]: the miss counter goes up by one and the hit counter stays; the
    computation runs once, on the arguments of the call; the entry
    [(key, v)] is put at the most-recently-used end; if the dictionary
    then has more entries than [maxsize], its first entry (the least
    recently used) is removed and nothing else; and the call returns
    [v]. *)
Theorem miss_behaviour key rest st v w' :
  od_mem key (cache st) = false →
  func (key :: rest) (world st) = (Ok v, w') →
  ∃ st',
    inner func (key :: rest) st = (Ok (Some v), st') ∧
    misses st' = (misses st + 1)%Z ∧
    hits st' = hits st ∧
    maxsize st' = maxsize st ∧
    calls st' = calls st ++ [key :: rest] ∧
    world st' = w' ∧
    cache st' =
      (if (Z.of_nat (length (cache st)) + 1 >? maxsize st)%Z
       then tail (cache st ++ [(key, v)])
       else cache st ++ [(key, v)]).
Proof.
  intros Hm Hf. eexists. split; [by apply inner_miss|]. simpl.
  split_and!; try done.
  unfold od_trim. rewrite length_app. simpl.
  by replace (Z.of_nat (length (cache st) + 1)) with
    (Z.of_nat (length (cache st)) + 1)%Z by lia.
Qed.

(** C4: a call for a resident key, in a state the wrapper can reach:
    the hit counter goes up by one and the miss counter stays; the key
    moves to the most-recently-used end, the other entries keep their
    order; the stored value is returned; the computation does not run.
    So calls for that key, one after the other, leave the number of
    entries as it was and never run the computation; and after the miss
    that made a key resident, any number of calls for it leave that one
    run of the computation the only one. *)
Theorem hit_behaviour key v st :
  reachable func st →
  od_lookup key (cache st) = Some v →
  (∀ rest, ∃ st',
     inner func (key :: rest) st = (Ok (Some v), st') ∧
     hits st' = (hits st + 1)%Z ∧
     misses st' = misses st ∧
     calls st' = calls st ∧
     world st' = world st ∧
     cache st' = od_unlink key (cache st) ++ [(key, v)] ∧
     length (cache st') = length (cache st)) ∧
  (∀ argss,
     Forall (λ args, head args = Some key) argss →
     length (cache (run func argss st)) = length (cache st) ∧
     calls (run func argss st) = calls st ∧
     world (run func argss st) = world st ∧
     od_lookup key (cache (run func argss st)) = Some v ∧
     hits (run func argss st) = (hits st + Z.of_nat (length argss))%Z ∧
     misses (run func argss st) = misses st) ∧
  (∀ st1 first argss,
     reachable func st1 →
     od_mem key (cache st1) = false →
     head first = Some key →
     after func first st1 = st →
     Forall (λ args, head args = Some key) argss →
     calls (run func (first :: argss) st1) = calls st1 ++ [first]).
Proof.
  intros Hr Hl.
  destruct (reachable_inv func st Hr) as [Hnd Hsz].
  pose proof (od_lookup_Some_mem _ _ _ Hl) as Hm.
  assert (Z.of_nat (length (cache st)) ≤ maxsize st)%Z as Hfit.
  { pose proof (length_od_unlink _ _ Hm). lia. }
  assert (∀ argss,
    Forall (λ args, head args = Some key) argss →
    length (cache (run func argss st)) = length (cache st) ∧
    calls (run func argss st) = calls st ∧
    world (run func argss st) = world st ∧
    od_lookup key (cache (run func argss st)) = Some v ∧
    hits (run func argss st) = (hits st + Z.of_nat (length argss))%Z ∧
    misses (run func argss st) = misses st) as Hrep.
  { intros argss Hall. by apply run_resident. }
  split_and!.
  - intros rest. eexists. split; [by apply inner_hit_fits|]. simpl.
    split_and!; try done. by apply length_od_moved.
  - exact Hrep.
  - intros st1 first argss Hr1 Hm1 Hhd Hafter Hall.
    destruct (Hrep argss Hall) as (_ & Hcalls & _).
    simpl. rewrite Hafter, Hcalls, <- Hafter.
    destruct first as [|k rest]; [done|]. injection Hhd as ->.
    unfold after.
    destruct (func (key :: rest) (world st1)) as [[v1|x] w'] eqn:Hf.
    + by rewrite (inner_miss func _ _ _ _ _ Hm1 Hf).
    + by rewrite (inner_raise func _ _ _ _ _ Hm1 Hf).
Qed.
(** C5: along any sequence of calls that each have a key (a first
    argument), the hit counter and the miss counter never go down, and
    after any prefix of the sequence their sum is the number of calls
    made so far, whether those calls returned or raised. *)
Theorem counters_monotone_and_complete (maxsize : Z) (w : W) st0
    (done_calls more_calls : list (list K)) :
  lru_cache func maxsize w = Ok st0 →
  Forall (λ args, args ≠ []) (done_calls ++ more_calls) →
  (hits (run func done_calls st0)
     ≤ hits (run func (done_calls ++ more_calls) st0))%Z ∧
  (misses (run func done_calls st0)
     ≤ misses (run func (done_calls ++ more_calls) st0))%Z ∧
  (hits (run func done_calls st0) + misses (run func done_calls st0)
     = Z.of_nat (length done_calls))%Z.
Proof.
  intros Hnew [Hall _]%Forall_app. injection Hnew as <-.
  rewrite run_app. split_and!; try apply run_monotone.
  rewrite run_count. simpl.
  replace (filter (λ a, a ≠ []) done_calls) with done_calls; [lia|].
  clear -Hall. induction Hall as [|args argss Hne _ IH]; [done|].
  rewrite filter_cons_True by done. by rewrite <- IH.
Qed.

(** C6: a call for a key that is not resident, whose computation raises
    [x]: the call raises the same [x]; the dictionary, with its entries,
    their order and their number, is as before the call; the miss
    counter, incremented before the computation ran, is one higher, and
    the hit counter is unchanged. *)
Theorem raising_computation key rest st x w' :
  od_mem key (cache st) = false →
  func (key :: rest) (world st) = (Raise x, w') →
  ∃ st',
    inner func (key :: rest) st = (Raise x, st') ∧
    cache st' = cache st ∧
    cache_info st' = (hits st, (misses st + 1)%Z, maxsize st,
                      Z.of_nat (length (cache st))) ∧
    od_mem key (cache st') = false ∧
    calls st' = calls st ++ [key :: rest].
Proof.
  intros Hm Hf. eexists. split; [by apply inner_raise|]. done.
Qed.

(** C7: with capacity 1 and two distinct keys [K1] and [K2], the calls on
    [K1] and then [K2] leave [K2] the only resident key, and a call on
    [K1] after them is a miss: it counts as one and runs the
    computation. *)
Theorem single_capacity (K1 K2 : K) (v1 v2 : V) (w0 w1 w2 : W) st0 :
  K1 ≠ K2 →
  lru_cache func 1 w0 = Ok st0 →
  func [K1] w0 = (Ok v1, w1) →
  func [K2] w1 = (Ok v2, w2) →
  ∃ s1 s2,
    inner func [K1] st0 = (Ok (Some v1), s1) ∧
    inner func [K2] s1 = (Ok (Some v2), s2) ∧
    cache s2 = [(K2, v2)] ∧
    cache_info s2 = (0, 2, 1, 1)%Z ∧
    od_mem K1 (cache s2) = false ∧
    od_mem K2 (cache s2) = true ∧
    misses (after func [K1] s2) = (misses s2 + 1)%Z ∧
    hits (after func [K1] s2) = hits s2 ∧
    calls (after func [K1] s2) = calls s2 ++ [[K1]].
Proof.
  intros Hne Hnew Hf1 Hf2. injection Hnew as <-.
  eexists _, _.
  split; [by apply inner_miss|]. simpl.
  split; [apply inner_miss; [by key_tests | exact Hf2]|]. simpl.
  unfold od_trim. key_tests. split_and!; try done.
  all: unfold after;
    destruct (func [K1] w2) as [[v|x] w'] eqn:Hf;
    [ erewrite inner_miss by (try exact Hf; by key_tests)
    | erewrite inner_raise by (try exact Hf; by key_tests) ]; done.
Qed.

(** C8: in a call with at least one argument only the first argument is
    a key.  The loop runs its body once, for the first argument, and
    that run leaves the function (it never asks for a next iteration).
    Whether the call is a hit or a miss is the presence of the first
    argument; on a miss the computation gets all the arguments; the only
    key the call can add to the dictionary is the first argument; and a
    hit does not depend on the other arguments at all. *)
Theorem first_argument_is_key key rest st :
  inner func (key :: rest) st =
    match inner_body func (key :: rest) key st with
    | (Ok (Return r), st') => (Ok (Some r), st')
    | (Ok Next, st') => (Ok None, st')
    | (Raise x, st') => (Raise x, st')
    end ∧
  (∀ st', inner_body func (key :: rest) key st ≠ (Ok Next, st')) ∧
  (if od_mem key (cache st)
   then hits (after func (key :: rest) st) = (hits st + 1)%Z ∧
        misses (after func (key :: rest) st) = misses st ∧
        calls (after func (key :: rest) st) = calls st
   else hits (after func (key :: rest) st) = hits st ∧
        misses (after func (key :: rest) st) = (misses st + 1)%Z ∧
        calls (after func (key :: rest) st) = calls st ++ [key :: rest]) ∧
  (∀ k, k ∈ od_keys (cache (after func (key :: rest) st)) →
        k = key ∨ k ∈ od_keys (cache st)) ∧
  (od_mem key (cache st) = true →
   ∀ rest', inner func (key :: rest') st = inner func (key :: rest) st).
Proof.
  split; [apply inner_cons|].
  split; [intros st'; apply inner_body_not_Next|].
  unfold after. destruct (od_mem key (cache st)) eqn:Hm.
  - destruct (od_mem_true_lookup _ _ Hm) as [v Hl].
    rewrite (inner_hit func _ rest _ _ Hl). simpl.
    split_and!; try done.
    + intros k Hk%od_keys_trim_subseteq.
      unfold od_keys in *. rewrite fmap_app, elem_of_app in Hk.
      destruct Hk as [Hk|Hk%list_elem_of_singleton]; [right|by left].
      by apply (od_keys_unlink_subseteq key).
    + intros _ rest'. by rewrite (inner_hit func _ rest' _ _ Hl).
  - destruct (func (key :: rest) (world st)) as [[v|x] w'] eqn:Hf.
    + rewrite (inner_miss func _ _ _ _ _ Hm Hf). simpl.
      split_and!; try done.
      intros k Hk%od_keys_trim_subseteq.
      unfold od_keys in *. rewrite fmap_app, elem_of_app in Hk.
      destruct Hk as [Hk|Hk%list_elem_of_singleton]; [by right|by left].
    + rewrite (inner_raise func _ _ _ _ _ Hm Hf). simpl.
      split_and!; try done. by right.
Qed.

(** C9: the construction checks nothing: for every [maxsize], zero and
    negative ones too, [lru_cache] returns a wrapper rather than raising;
    the wrapper starts empty, with both counters at zero and with the
    [maxsize] it was given. *)
Theorem construction_unchecked (maxsize : Z) (w : W) :
  ∃ st0,
    lru_cache func maxsize w = Ok st0 ∧
    cache st0 = [] ∧
    cache_info st0 = (0, 0, maxsize, 0)%Z ∧
    world st0 = w ∧
    calls st0 = [].
Proof. by eexists. Qed.

(** C10: a call without arguments returns [None] and changes nothing:
    the dictionary, the counters and the world are as before, and the
    computation does not run.  So once such a call was made, the sum of
    the counters is below the number of calls. *)
Theorem call_without_arguments st (maxsize : Z) (w : W)
    (before later : list (list K)) :
  inner func [] st = (Ok None, st) ∧
  ∃ st0,
    lru_cache func maxsize w = Ok st0 ∧
    (hits (run func (before ++ [] :: later) st0)
       + misses (run func (before ++ [] :: later) st0)
     < Z.of_nat (length (before ++ [] :: later)))%Z.
Proof.
  split; [apply inner_nil|]. eexists. split; [done|].
  rewrite run_count. simpl. rewrite filter_app, !length_app.
  rewrite filter_cons_False by naive_solver. simpl.
  pose proof (length_filter (λ a : list K, a ≠ []) before).
  pose proof (length_filter (λ a : list K, a ≠ []) later).
  lia.
Qed.
End Behaviour.

(** * The properties on a concrete wrapper

    [demo_func] wrapped with capacity 2 (or 1), keys 1, 2, 3 and the
    raising key 7. *)

Lemma lru_eviction_order_witness :
  ∃ s1 s2 s3 s4 s5,
    inner demo_func [1] (demo_new 2) = (Ok (Some 101), s1) ∧
    inner demo_func [2] s1 = (Ok (Some 102), s2) ∧
    inner demo_func [1] s2 = (Ok (Some 101), s3) ∧
    inner demo_func [3] s3 = (Ok (Some 103), s4) ∧
    inner demo_func [2] s4 = (Ok (Some 102), s5) ∧
    cache_info s1 = (0, 1, 2, 1)%Z ∧
    cache_info s2 = (0, 2, 2, 2)%Z ∧
    cache_info s3 = (1, 2, 2, 2)%Z ∧
    cache_info s4 = (1, 3, 2, 2)%Z ∧
    cache_info s5 = (1, 4, 2, 2)%Z ∧
    calls s1 = [[1]] ∧
    calls s2 = [[1]; [2]] ∧
    calls s3 = [[1]; [2]] ∧
    calls s4 = [[1]; [2]; [3]] ∧
    calls s5 = [[1]; [2]; [3]; [2]] ∧
    cache s3 = [(2, 102); (1, 101)] ∧
    cache s4 = [(1, 101); (3, 103)] ∧
    od_mem 2 (cache s4) = false ∧
    od_mem 1 (cache s4) = true.
Proof.
  apply (lru_eviction_order demo_func 1 2 3 101 102 103 102 0 1 2 3 4);
    (lia || reflexivity).
Defined.

Lemma capacity_invariant_witness :
  ∃ h m currsize,
    cache_info (run demo_func [[1]; [2]; [7]; []; [3; 1]; [2]] (demo_new 2))
      = (h, m, 2%Z, currsize) ∧
    currsize =
      Z.of_nat (length (cache
        (run demo_func [[1]; [2]; [7]; []; [3; 1]; [2]] (demo_new 2)))) ∧
    (currsize ≤ 2)%Z.
Proof.
  apply (capacity_invariant demo_func 2 0%nat); [lia | reflexivity].
Defined.

Lemma miss_behaviour_witness :
  ∃ st',
    inner demo_func [3; 5] (run demo_func [[1]; [2]] (demo_new 2))
      = (Ok (Some 108), st') ∧
    misses st' = 3%Z ∧
    hits st' = 0%Z ∧
    maxsize st' = 2%Z ∧
    calls st' = [[1]; [2]; [3; 5]] ∧
    world st' = 3 ∧
    cache st' = [(2, 102); (3, 108)].
Proof.
  exact (miss_behaviour demo_func 3 [5]
           (run demo_func [[1]; [2]] (demo_new 2)) 108 3 eq_refl eq_refl).
Defined.

Lemma hit_behaviour_witness :
  (∀ rest, ∃ st',
     inner demo_func (1 :: rest) (run demo_func [[1]; [2]] (demo_new 2))
       = (Ok (Some 101), st') ∧
     hits st' = 1%Z ∧
     misses st' = 2%Z ∧
     calls st' = [[1]; [2]] ∧
     world st' = 2 ∧
     cache st' = [(2, 102); (1, 101)] ∧
     length (cache st') = 2) ∧
  calls (run demo_func [[1]; [1; 4]; [1]]
           (run demo_func [[1]; [2]] (demo_new 2))) = [[1]; [2]] ∧
  calls (run demo_func [[2]; [2; 9]; [2]] (run demo_func [[1]] (demo_new 2)))
    = [[1]; [2]].
Proof.
  assert (reachable demo_func (run demo_func [[1]; [2]] (demo_new 2))) as Hr.
  { apply reachable_run, (reachable_new _ 2 0%nat). reflexivity. }
  destruct (hit_behaviour demo_func 1 101
              (run demo_func [[1]; [2]] (demo_new 2)) Hr eq_refl)
    as (Hone & Hmany & _).
  assert (reachable demo_func (run demo_func [[1]] (demo_new 2))) as Hr1.
  { apply reachable_run, (reachable_new _ 2 0%nat). reflexivity. }
  destruct (hit_behaviour demo_func 2 102
              (run demo_func [[1]; [2]] (demo_new 2)) Hr eq_refl)
    as (_ & _ & Hfirst).
  split; [exact Hone|]. split.
  - apply (Hmany [[1]; [1; 4]; [1]]). repeat constructor.
  - apply (Hfirst (run demo_func [[1]] (demo_new 2)) [2] [[2; 9]; [2]] Hr1);
      try reflexivity. repeat constructor.
Defined.

Lemma counters_monotone_and_complete_witness :
  let done_calls : list (list nat) := [[1]; [2]; [1]; [7]] in
  let more_calls : list (list nat) := [[2]; [3]] in
  (hits (run demo_func done_calls (demo_new 2))
     ≤ hits (run demo_func (done_calls ++ more_calls) (demo_new 2)))%Z ∧
  (misses (run demo_func done_calls (demo_new 2))
     ≤ misses (run demo_func (done_calls ++ more_calls) (demo_new 2)))%Z ∧
  (hits (run demo_func done_calls (demo_new 2))
     + misses (run demo_func done_calls (demo_new 2))
   = Z.of_nat (length done_calls))%Z.
Proof.
  apply (counters_monotone_and_complete demo_func 2 0%nat);
    [reflexivity | repeat constructor; discriminate].
Defined.

Lemma raising_computation_witness :
  ∃ st',
    inner demo_func [7; 1] (run demo_func [[1]; [2]] (demo_new 2))
      = (Raise (FuncError ()), st') ∧
    cache st' = [(1, 101); (2, 102)] ∧
    cache_info st' = (0, 3, 2, 2)%Z ∧
    od_mem 7 (cache st') = false ∧
    calls st' = [[1]; [2]; [7; 1]].
Proof.
  exact (raising_computation demo_func 7 [1]
           (run demo_func [[1]; [2]] (demo_new 2)) (FuncError ()) 3
           eq_refl eq_refl).
Defined.

Lemma single_capacity_witness :
  ∃ s1 s2,
    inner demo_func [1] (demo_new 1) = (Ok (Some 101), s1) ∧
    inner demo_func [2] s1 = (Ok (Some 102), s2) ∧
    cache s2 = [(2, 102)] ∧
    cache_info s2 = (0, 2, 1, 1)%Z ∧
    od_mem 1 (cache s2) = false ∧
    od_mem 2 (cache s2) = true ∧
    misses (after demo_func [1] s2) = (misses s2 + 1)%Z ∧
    hits (after demo_func [1] s2) = hits s2 ∧
    calls (after demo_func [1] s2) = calls s2 ++ [[1]].
Proof.
  apply (single_capacity demo_func 1 2 101 102 0 1 2);
    (lia || reflexivity).
Defined.

Lemma first_argument_is_key_witness :
  hits (after demo_func [1; 2; 3] (run demo_func [[1]] (demo_new 2))) = 1%Z ∧
  calls (after demo_func [1; 2; 3] (run demo_func [[1]] (demo_new 2)))
    = [[1]] ∧
  inner demo_func [1; 9] (run demo_func [[1]] (demo_new 2))
    = inner demo_func [1; 2; 3] (run demo_func [[1]] (demo_new 2)) ∧
  ¬ 2 ∈ od_keys (cache
        (after demo_func [1; 2; 3] (run demo_func [[1]] (demo_new 2)))).
Proof.
  destruct (first_argument_is_key demo_func 1 [2; 3]
              (run demo_func [[1]] (demo_new 2)))
    as (_ & _ & (Hh & _ & Hc) & Hkeys & Hhit).
  split; [exact Hh|]. split; [exact Hc|].
  split; [apply (Hhit eq_refl [9])|].
  intros [Heq | Hin]%Hkeys; [lia|].
  vm_compute in Hin. apply list_elem_of_singleton in Hin. lia.
Defined.

(** * More on the dictionary and on the wrapper *)

(** ** Lookups after the dictionary operations *)

Section OrderedDictLookups.
Context {K V : Type} `{EqDecision K}.
Implicit Types (key k : K) (value v : V) (d : odict K V).




Lemma od_lookup_unlink_ne key k d :
  k ≠ key → od_lookup k (od_unlink key d) = od_lookup k d.
Proof.
  intros Hne. induction d as [|[k' v'] d IH]; simpl; [done|].
  case_decide as Hk; simpl.
  - subst. by rewrite decide_False.
  - by rewrite IH.
Qed.

Lemma od_lookup_snoc_ne key k v d :
  k ≠ key → od_lookup k (d ++ [(key, v)]) = od_lookup k d.
Proof.
  intros Hne. rewrite od_lookup_app. simpl. rewrite decide_False by done.
  by destruct (od_lookup k d).
Qed.

Lemma od_lookup_snoc_fresh key v d :
  od_mem key d = false → od_lookup key (d ++ [(key, v)]) = Some v.
Proof.
  intros Hm%od_mem_false_lookup. rewrite od_lookup_app, Hm. simpl.
  by rewrite decide_True.
Qed.

Lemma od_keys_snoc_NoDup key v d :
  od_mem key d = false → NoDup (od_keys d) →
  NoDup (od_keys (d ++ [(key, v)])).
Proof.
  intros Hm%od_mem_false_keys Hnd. unfold od_keys in *.
  rewrite fmap_app. simpl.
  apply NoDup_app. split_and!; [done | | apply NoDup_singleton].
  intros k Hk ->%list_elem_of_singleton. done.
Qed.

Lemma od_keys_moved_NoDup key v d :
  NoDup (od_keys d) → NoDup (od_keys (od_unlink key d ++ [(key, v)])).
Proof.
  intros [Hnd Hnotin]%(od_keys_unlink_NoDup key).
  apply od_keys_snoc_NoDup; [by apply od_mem_false_keys | done].
Qed.

(** Moving a key to the end changes the order, not the mapping. *)
Lemma od_lookup_moved_any key v k d :
  NoDup (od_keys d) → od_lookup key d = Some v →
  od_lookup k (od_unlink key d ++ [(key, v)]) = od_lookup k d.
Proof.
  intros Hnd Hl. destruct (decide (k = key)) as [->|Hne].
  - by rewrite od_lookup_moved.
  - by rewrite od_lookup_snoc_ne, od_lookup_unlink_ne.
Qed.

(** ** The keys used more recently than a key *)

Lemma od_newer_sublist key d : od_newer key d `sublist_of` od_keys d.
Proof.
  unfold od_keys. induction d as [|[k v] d IH]; simpl; [done|].
  case_decide; by apply sublist_cons.
Qed.

Lemma od_newer_NoDup key d : NoDup (od_keys d) → NoDup (od_newer key d).
Proof. intros Hnd. eapply sublist_NoDup; [exact Hnd | apply od_newer_sublist]. Qed.

Lemma od_newer_unlink key k d :
  k ≠ key → od_newer key (od_unlink k d) ⊆ od_newer key d.
Proof.
  intros Hne. induction d as [|[k' v'] d IH]; simpl; [done|].
  case_decide as Hk; simpl.
  - subst. by rewrite decide_False by done.
  - case_decide; [|done]. apply (od_keys_unlink_subseteq k).
Qed.

Lemma od_newer_snoc key k v d :
  od_mem key d = true → od_newer key (d ++ [(k, v)]) = od_newer key d ++ [k].
Proof.
  induction d as [|[k' v'] d IH]; simpl; [done|].
  case_decide; [|done]. intros _. unfold od_keys. by rewrite fmap_app.
Qed.

Lemma od_newer_moved key v d :
  NoDup (od_keys d) → od_newer key (od_unlink key d ++ [(key, v)]) = [].
Proof.
  intros [_ Hnotin]%(od_keys_unlink_NoDup key).
  apply od_mem_false_keys in Hnotin. revert Hnotin.
  induction (od_unlink key d) as [|[k' v'] d' IH]; simpl.
  - by rewrite decide_True.
  - case_decide; [done|]. exact IH.
Qed.

(** A key with fewer than [maxsize] keys after it is not the one the
    trimming removes. *)
Lemma od_trim_keeps maxsize key v d :
  od_lookup key d = Some v →
  (Z.of_nat (length (od_newer key d)) < maxsize)%Z →
  od_lookup key (od_trim maxsize d) = Some v ∧
  od_newer key (od_trim maxsize d) = od_newer key d.
Proof.
  intros Hl Hlt. unfold od_trim.
  destruct (Z.gtb_spec (Z.of_nat (length d)) maxsize) as [Hgt|]; [|done].
  destruct d as [|[k' v'] d]; simpl in *; [done|].
  case_decide; [|done].
  unfold od_keys in Hlt. rewrite length_fmap in Hlt. lia.
Qed.
End OrderedDictLookups.

(** ** [add_to_cache] on any dictionary *)

Section AddToCache.
Context {K V E : Type} `{EqDecision K}.
Implicit Types (key k : K) (value v : V) (d : odict K V).

Lemma length_od_assign key value d :
  length (od_assign key value d) =
  if od_mem key d then length d else S (length d).
Proof.
  induction d as [|[k v] d IH]; simpl; [done|].
  case_decide; simpl; [done|]. rewrite IH. by destruct (od_mem key d).
Qed.

Lemma od_keys_assign key value d :
  od_keys (od_assign key value d) =
  if od_mem key d then od_keys d else od_keys d ++ [key].
Proof.
  unfold od_keys. induction d as [|[k v] d IH]; [done|].
  simpl od_assign. simpl od_mem. case_decide; [done|].
  rewrite !fmap_cons, IH. by destruct (od_mem key d).
Qed.

Lemma od_keys_assign_NoDup key value d :
  NoDup (od_keys d) → NoDup (od_keys (od_assign key value d)).
Proof.
  intros Hnd. rewrite od_keys_assign.
  destruct (od_mem key d) eqn:Hm; [done|].
  pose proof (od_keys_snoc_NoDup key value d Hm Hnd) as Hsnoc.
  unfold od_keys in *. by rewrite fmap_app in Hsnoc.
Qed.

Lemma last_od_trim_snoc maxsize (kv : K * V) d :
  (1 ≤ maxsize)%Z → last (od_trim maxsize (d ++ [kv])) = Some kv.
Proof.
  intros Hpos. unfold od_trim.
  destruct (Z.gtb_spec (Z.of_nat (length (d ++ [kv]))) maxsize) as [Hgt|].
  - destruct d as [|kv' d]; simpl in *; [lia|]. apply last_snoc.
  - apply last_snoc.
Qed.

(** X1: [add_to_cache] never raises, whatever the dictionary and the
    [maxsize]: [move_to_end] finds the key just assigned and [popitem]
    is only called on a dictionary with an entry.  It removes at most
    one entry: with [n] the number of entries once [key] is assigned,
    the dictionary ends with [n - 1] entries when [n > maxsize] and with
    [n] otherwise, so a dictionary that was further over [maxsize] stays
    over it. *)
Theorem add_to_cache_evicts_at_most_one maxsize key value d :
  ∃ d',
    add_to_cache (E:=E) maxsize key value d = (Ok tt, d') ∧
    length d' =
      (let n := if od_mem key d then length d else S (length d) in
       if (Z.of_nat n >? maxsize)%Z then pred n else n).
Proof.
  eexists. split; [apply add_to_cache_eq|].
  assert (length (od_unlink key (od_assign key value d) ++ [(key, value)])
          = if od_mem key d then length d else S (length d)) as Hlen.
  { rewrite length_od_moved, length_od_assign; [done|].
    eapply od_lookup_Some_mem, od_lookup_assign. }
  unfold od_trim. rewrite Hlen. simpl.
  destruct (_ >? _)%Z; [|done].
  destruct (od_unlink key (od_assign key value d) ++ [(key, value)]);
    simpl in *; by rewrite <- Hlen.
Qed.

(** X2: with [maxsize] at least 1, [add_to_cache] on a dictionary with
    distinct keys leaves [key] as the last (most recently used) entry,
    bound to [value], and the keys distinct. *)
Theorem add_to_cache_most_recent maxsize key value d :
  (1 ≤ maxsize)%Z →
  NoDup (od_keys d) →
  ∃ d',
    add_to_cache (E:=E) maxsize key value d = (Ok tt, d') ∧
    last d' = Some (key, value) ∧
    od_lookup key d' = Some value ∧
    od_newer key d' = [] ∧
    NoDup (od_keys d').
Proof.
  intros Hpos Hnd. eexists. split; [apply add_to_cache_eq|].
  pose proof (od_keys_assign_NoDup key value d Hnd) as Hnd'.
  pose proof (od_lookup_moved key value _ Hnd') as Hl.
  pose proof (od_newer_moved key value _ Hnd') as Hnew.
  destruct (od_trim_keeps maxsize key value _ Hl) as [Hl' Hnew'].
  { rewrite Hnew. simpl. lia. }
  split_and!.
  - by apply last_od_trim_snoc.
  - exact Hl'.
  - by rewrite Hnew'.
  - by apply od_trim_NoDup, od_keys_moved_NoDup.
Qed.
End AddToCache.

(** ** Sequences of calls *)

(** The four ways the call of [inner func] on [args] in [st] can go. *)
Ltac inner_cases func args st :=
  let key := fresh "key" in
  let rest := fresh "rest" in
  let Hm := fresh "Hm" in
  let Hl := fresh "Hl" in
  let Hf := fresh "Hf" in
  let v := fresh "v" in
  let x := fresh "x" in
  let w' := fresh "w'" in
  unfold after;
  destruct args as [|key rest];
  [ rewrite (inner_nil func)
  | destruct (od_mem key (cache st)) eqn:Hm;
    [ destruct (od_mem_true_lookup _ _ Hm) as [v Hl];
      rewrite (inner_hit func _ rest _ _ Hl)
    | destruct (func (key :: rest) (world st)) as [[v|x] w'] eqn:Hf;
      [ rewrite (inner_miss func _ _ _ _ _ Hm Hf)
      | rewrite (inner_raise func _ _ _ _ _ Hm Hf) ] ] ];
  simpl.

Section Sequences.
Context {K V E W : Type} `{EqDecision K}.
Variable func : list K → W → result E V * W.
Implicit Types (key k : K) (args rest : list K) (v : V) (w : W).
Implicit Types (st : state (K:=K) (V:=V) (W:=W)).
Implicit Types (argss : list (list K)) (T : list K).

Lemma length_od_trim_le maxsize (d : odict K V) :
  length (od_trim maxsize d) ≤ length d.
Proof.
  unfold od_trim. destruct (_ >? _)%Z; [|done]. destruct d; simpl; lia.
Qed.

Lemma od_newer_snoc_fresh key v (d : odict K V) :
  od_mem key d = false → od_newer key (d ++ [(key, v)]) = [].
Proof.
  induction d as [|[k' v'] d IH]; simpl.
  - by rewrite decide_True.
  - case_decide; [done|]. exact IH.
Qed.

Lemma after_nonpositive args st :
  cache st = [] → (maxsize st ≤ 0)%Z →
  cache (after func args st) = [] ∧
  hits (after func args st) = hits st ∧
  calls (after func args st) = calls st ++ (if args is [] then [] else [args]).
Proof.
  intros Hc Hle. inner_cases func args st.
  - by rewrite app_nil_r.
  - rewrite Hc in Hm. done.
  - rewrite Hc. unfold od_trim. simpl.
    by destruct (Z.gtb_spec (Z.of_nat 1) (maxsize st)); [|lia].
  - done.
Qed.

Lemma run_nonpositive argss st :
  cache st = [] → (maxsize st ≤ 0)%Z →
  cache (run func argss st) = [] ∧
  hits (run func argss st) = hits st ∧
  calls (run func argss st) = calls st ++ filter (λ a, a ≠ []) argss.
Proof.
  revert st. induction argss as [|args argss IH]; intros st Hc Hle.
  { simpl. by rewrite app_nil_r. }
  destruct (after_nonpositive args st Hc Hle) as (Hc' & Hh' & Hcalls').
  simpl. destruct (IH (after func args st)) as (IH1 & IH2 & IH3);
    [done | by rewrite after_maxsize |].
  rewrite IH1, IH2, IH3, Hh', Hcalls'. split_and!; try done.
  destruct args; [rewrite filter_cons_False by (by intros ?)
                 |rewrite filter_cons_True by done];
    by rewrite <- app_assoc.
Qed.

(** X3: a wrapper built with a [maxsize] of zero or less memoizes
    nothing.  After any sequence of calls its dictionary is empty and
    its hit counter is 0; the computation ran once for every call that
    had a key, in the order of the calls, and the miss counter is the
    number of those calls. *)
Theorem nonpositive_capacity_caches_nothing (maxsize : Z) (w : W) st0 argss :
  (maxsize ≤ 0)%Z →
  lru_cache func maxsize w = Ok st0 →
  cache (run func argss st0) = [] ∧
  calls (run func argss st0) = filter (λ a, a ≠ []) argss ∧
  cache_info (run func argss st0) =
    (0, Z.of_nat (length (filter (λ a, a ≠ []) argss)), maxsize, 0)%Z.
Proof.
  intros Hle Hnew. injection Hnew as <-.
  destruct (run_nonpositive argss (mk_state maxsize [] 0 0 w []))
    as (Hc & Hh & Hcalls); [done | done |].
  pose proof (run_count func argss (mk_state maxsize [] 0 0 w [])) as Hcount.
  unfold cache_info. rewrite run_maxsize, Hc, Hh in *. simpl in *.
  split_and!; [done | done |]. repeat f_equal. lia.
Qed.

(** X4: in every state a wrapper reaches, the miss counter is the number
    of times the computation was called, and the dictionary has no more
    entries than that. *)
Theorem misses_count_computations st :
  reachable func st →
  misses st = Z.of_nat (length (calls st)) ∧
  (Z.of_nat (length (cache st)) ≤ misses st)%Z.
Proof.
  induction 1 as [maxsize w st Hnew | args st _ [IH1 IH2]].
  - injection Hnew as <-. simpl. lia.
  - inner_cases func args st.
    + done.
    + split; [done|]. pose proof (length_od_moved key v _ Hm) as Hlen.
      pose proof (length_od_trim_le (maxsize st)
                    (od_unlink key (cache st) ++ [(key, v)])). lia.
    + rewrite length_app. simpl. split; [lia|].
      pose proof (length_od_trim_le (maxsize st) (cache st ++ [(key, v)]))
        as Hlen. rewrite length_app in Hlen. simpl in Hlen. lia.
    + rewrite length_app. simpl. lia.
Qed.


(** X6: once a call for an absent key has computed a value, with
    [maxsize] at least 1, the next call with the same first argument
    returns that value without computing, whatever its other arguments
    are: the value computed for [key :: rest] is what a call on
    [key :: rest'] gets. *)
Theorem computed_value_is_reused key rest rest' st v w' :
  od_mem key (cache st) = false →
  (1 ≤ maxsize st)%Z →
  func (key :: rest) (world st) = (Ok v, w') →
  ∃ st1 st2,
    inner func (key :: rest) st = (Ok (Some v), st1) ∧
    inner func (key :: rest') st1 = (Ok (Some v), st2) ∧
    calls st2 = calls st ++ [key :: rest] ∧
    world st2 = w' ∧
    hits st2 = (hits st + 1)%Z ∧
    misses st2 = (misses st + 1)%Z.
Proof.
  intros Hm Hpos Hf. eexists _, _.
  split; [by apply inner_miss|].
  assert (od_lookup key (od_trim (maxsize st) (cache st ++ [(key, v)]))
          = Some v) as Hl; [|split; [by apply inner_hit | done]].
  apply od_trim_keeps; [by apply od_lookup_snoc_fresh|].
  rewrite od_newer_snoc_fresh by done. simpl. lia.
Qed.

(** X7: a computation that raised is not remembered: the key stays
    absent, and the next call for it is a miss again that calls the
    computation again. *)
Theorem exceptions_are_not_cached key rest rest' st x w' :
  od_mem key (cache st) = false →
  func (key :: rest) (world st) = (Raise x, w') →
  ∃ st1,
    inner func (key :: rest) st = (Raise x, st1) ∧
    od_mem key (cache st1) = false ∧
    calls (after func (key :: rest') st1)
      = calls st ++ [key :: rest; key :: rest'] ∧
    misses (after func (key :: rest') st1) = (misses st + 2)%Z ∧
    hits (after func (key :: rest') st1) = hits st.
Proof.
  intros Hm Hf. eexists. split; [by apply inner_raise|]. simpl.
  split; [done|]. unfold after.
  destruct (func (key :: rest') w') as [[v1|x1] w1] eqn:Hf1.
  - erewrite inner_miss by (try exact Hf1; done). simpl.
    rewrite <- app_assoc. split_and!; [done | lia | done].
  - erewrite inner_raise by (try exact Hf1; done). simpl.
    rewrite <- app_assoc. split_and!; [done | lia | done].
Qed.

(** X8: a hit changes the order of the dictionary and nothing else:
    every key is bound to what it was bound to, and the number of
    entries is the same. *)
Theorem hit_keeps_the_mapping key rest st :
  reachable func st →
  od_mem key (cache st) = true →
  (∀ k, od_lookup k (cache (after func (key :: rest) st))
        = od_lookup k (cache st)) ∧
  length (cache (after func (key :: rest) st)) = length (cache st).
Proof.
  intros [Hnd Hsz]%reachable_inv Hm.
  destruct (od_mem_true_lookup _ _ Hm) as [v Hl].
  assert (Z.of_nat (length (cache st)) ≤ maxsize st)%Z as Hfit.
  { pose proof (length_od_unlink _ _ Hm). lia. }
  unfold after. rewrite (inner_hit_fits func _ rest _ _ Hfit Hl). simpl.
  split; [|by apply length_od_moved].
  intros k. by apply od_lookup_moved_any.
Qed.

(** X9: a miss on a full dictionary (as many entries as [maxsize])
    removes the first entry, the least recently used, and only that one:
    after the call the dictionary is the other entries in their order
    followed by the new one, the first key is gone, and every other key
    is bound to what it was bound to. *)
Theorem miss_evicts_only_the_oldest key rest st k0 v0 d v w' :
  NoDup (od_keys (cache st)) →
  cache st = (k0, v0) :: d →
  Z.of_nat (length (cache st)) = maxsize st →
  od_mem key (cache st) = false →
  func (key :: rest) (world st) = (Ok v, w') →
  cache (after func (key :: rest) st) = d ++ [(key, v)] ∧
  od_lookup k0 (cache (after func (key :: rest) st)) = None ∧
  od_lookup key (cache (after func (key :: rest) st)) = Some v ∧
  (∀ k, k ≠ k0 → k ≠ key →
        od_lookup k (cache (after func (key :: rest) st))
        = od_lookup k (cache st)).
Proof.
  intros Hnd Hc Hfull Hm Hf.
  unfold after. rewrite (inner_miss func _ _ _ _ _ Hm Hf). simpl.
  rewrite Hc in *. unfold od_trim. simpl in *.
  destruct (Z.gtb_spec (Z.of_nat (S (length (d ++ [(key, v)])))) (maxsize st))
    as [_|Hle]; [|rewrite length_app in Hle; simpl in Hle; lia].
  case_decide as Hk; [done|].
  unfold od_keys in Hnd. simpl in Hnd.
  apply NoDup_cons in Hnd as [Hk0 Hnd].
  split_and!.
  - done.
  - rewrite od_lookup_snoc_ne by congruence.
    by apply od_mem_false_lookup, od_mem_false_keys.
  - by apply od_lookup_snoc_fresh.
  - intros k Hk0' Hkey. rewrite od_lookup_snoc_ne by done.
    by rewrite decide_False.
Qed.
Lemma od_keys_bound (d : odict K V) T :
  NoDup (od_keys d) → (∀ k, k ∈ od_keys d → k ∈ T) → length d ≤ length T.
Proof.
  intros Hnd Hsub. unfold od_keys in *.
  rewrite <- (length_fmap fst d). by apply submseteq_length, NoDup_submseteq.
Qed.

(** The only key a call can add is its first argument. *)
Lemma after_keys args st k :
  k ∈ od_keys (cache (after func args st)) →
  k ∈ od_keys (cache st) ∨ head args = Some k.
Proof.
  unfold od_keys. inner_cases func args st; auto.
  - intros Hk%od_keys_trim_subseteq.
    unfold od_keys in Hk. rewrite fmap_app, elem_of_app in Hk.
    destruct Hk as [Hk|Hk%list_elem_of_singleton]; [left|right; by subst].
    by apply (od_keys_unlink_subseteq key).
  - intros Hk%od_keys_trim_subseteq.
    unfold od_keys in Hk. rewrite fmap_app, elem_of_app in Hk.
    destruct Hk as [Hk|Hk%list_elem_of_singleton]; [by left|right; by subst].
Qed.

(** One call, when the keys in use fit in the capacity. *)
Lemma after_fits T args st :
  NoDup (od_keys (cache st)) →
  (∀ k, k ∈ od_keys (cache st) → k ∈ T) →
  (Z.of_nat (length T) ≤ maxsize st)%Z →
  (∀ k, head args = Some k → k ∈ T) →
  ∀ k v, od_lookup k (cache st) = Some v →
         od_lookup k (cache (after func args st)) = Some v.
Proof.
  intros Hnd Hsub Hfit Hhd k v0 Hl.
  pose proof (od_keys_bound _ T Hnd Hsub) as Hlen.
  inner_cases func args st; try done.
  - rewrite od_trim_id.
    + by rewrite od_lookup_moved_any.
    + rewrite length_od_moved by done. lia.
  - assert (k ≠ key) as Hne.
    { intros ->. apply od_mem_false_lookup in Hm. congruence. }
    rewrite od_trim_id; [by rewrite od_lookup_snoc_ne|].
    pose proof (od_keys_snoc_NoDup key v _ Hm Hnd) as Hnd'.
    apply (od_keys_bound _ T) in Hnd'; [lia|].
    intros k'. unfold od_keys. rewrite fmap_app, elem_of_app. simpl.
    intros [Hk'|Hk'%list_elem_of_singleton];
      [by apply Hsub | subst; by apply Hhd].
Qed.

(** X10: when all the keys in use fit in the capacity, nothing is ever
    evicted.  If the keys of the dictionary and the first arguments of
    all further calls are among the members of a list [T] that is not
    longer than [maxsize], every key that is resident stays resident,
    bound to the same value, through any sequence of such calls. *)
Theorem fitting_keys_are_never_evicted T argss st k v :
  NoDup (od_keys (cache st)) →
  (∀ k', k' ∈ od_keys (cache st) → k' ∈ T) →
  (Z.of_nat (length T) ≤ maxsize st)%Z →
  Forall (λ args, ∀ k', head args = Some k' → k' ∈ T) argss →
  od_lookup k (cache st) = Some v →
  od_lookup k (cache (run func argss st)) = Some v.
Proof.
  intros Hnd Hsub Hfit Hall. revert st Hnd Hsub Hfit.
  induction Hall as [|args argss Hhd _ IH]; intros st Hnd Hsub Hfit Hl.
  { done. }
  simpl. apply IH.
  - by apply after_NoDup.
  - intros k' [Hk'|Hk']%after_keys; [by apply Hsub | by apply Hhd].
  - by rewrite after_maxsize.
  - by apply (after_fits T).
Qed.

(** Trimming, for a key with few enough keys after it. *)
Lemma od_trim_recent maxsize key v T (d : odict K V) :
  NoDup (od_keys d) →
  od_lookup key d = Some v →
  (∀ k, k ∈ od_newer key d → k ∈ T) →
  (Z.of_nat (length T) < maxsize)%Z →
  od_lookup key (od_trim maxsize d) = Some v ∧
  (∀ k, k ∈ od_newer key (od_trim maxsize d) → k ∈ T).
Proof.
  intros Hnd Hl Hsub Hlt.
  destruct (od_trim_keeps maxsize key v d Hl) as [Hl' Hnew].
  - apply (od_newer_NoDup key) in Hnd.
    pose proof (submseteq_length _ _ (NoDup_submseteq _ T Hnd Hsub)). lia.
  - by rewrite Hnew.
Qed.

(** One call on [key] or on a key of [T], for a resident [key] whose
    more recent keys are in [T]. *)
Lemma after_recent key v T args st :
  NoDup (od_keys (cache st)) →
  od_lookup key (cache st) = Some v →
  (∀ k, k ∈ od_newer key (cache st) → k ∈ T) →
  (Z.of_nat (length T) < maxsize st)%Z →
  (∀ k, head args = Some k → k = key ∨ k ∈ T) →
  od_lookup key (cache (after func args st)) = Some v ∧
  (∀ k, k ∈ od_newer key (cache (after func args st)) → k ∈ T).
Proof.
  intros Hnd Hl Hsub Hlt Hhd.
  inner_cases func args st; try done.
  - apply od_trim_recent; [by apply od_keys_moved_NoDup | | | done].
    + rewrite od_lookup_moved_any by done. exact Hl.
    + destruct (decide (key0 = key)) as [->|Hne].
      * rewrite od_newer_moved by done. by intros k ?%elem_of_nil.
      * rewrite od_newer_snoc.
        2:{ eapply od_lookup_Some_mem. by rewrite od_lookup_unlink_ne. }
        intros k [Hk|Hk%list_elem_of_singleton]%elem_of_app.
        -- by apply Hsub, (od_newer_unlink key key0).
        -- subst. destruct (Hhd key0 eq_refl); [done|done].
  - assert (key0 ≠ key) as Hne.
    { intros ->. apply od_mem_false_lookup in Hm. congruence. }
    apply od_trim_recent; [by apply od_keys_snoc_NoDup | | | done].
    + by rewrite od_lookup_snoc_ne.
    + rewrite od_newer_snoc by by eapply od_lookup_Some_mem.
      intros k [Hk|Hk%list_elem_of_singleton]%elem_of_app; [by apply Hsub|].
      subst. destruct (Hhd key0 eq_refl); [done|done].
Qed.

(** X11: the guarantee of least-recently-used eviction.  A resident key
    stays resident, bound to the same value, as long as the keys used
    since its last use are few: if the keys after it in the order and
    the first arguments of all further calls other than the key itself
    are among the members of a list [T] shorter than [maxsize], no
    sequence of such calls evicts it. *)
Theorem recently_used_key_survives key v T argss st :
  NoDup (od_keys (cache st)) →
  od_lookup key (cache st) = Some v →
  (∀ k, k ∈ od_newer key (cache st) → k ∈ T) →
  (Z.of_nat (length T) < maxsize st)%Z →
  Forall (λ args, ∀ k, head args = Some k → k = key ∨ k ∈ T) argss →
  od_lookup key (cache (run func argss st)) = Some v.
Proof.
  intros Hnd Hl Hsub Hlt Hall. revert st Hnd Hl Hsub Hlt.
  induction Hall as [|args argss Hhd _ IH]; intros st Hnd Hl Hsub Hlt.
  { done. }
  destruct (after_recent key v T args st Hnd Hl Hsub Hlt Hhd) as [Hl' Hsub'].
  simpl. apply IH; [by apply after_NoDup | done | done |].
  by rewrite after_maxsize.
Qed.
End Sequences.

(** ** These properties on the concrete wrapper *)

Lemma add_to_cache_most_recent_witness :
  ∃ d',
    add_to_cache (E:=unit) 2 2 202 [(1, 101); (2, 102); (3, 103)]
      = (Ok tt, d') ∧
    last d' = Some (2, 202) ∧
    od_lookup 2 d' = Some 202 ∧
    od_newer 2 d' = [] ∧
    NoDup (od_keys d').
Proof.
  apply (add_to_cache_most_recent 2 2 202 [(1, 101); (2, 102); (3, 103)]);
    [lia | by apply (bool_decide_unpack _)].
Defined.

Lemma nonpositive_capacity_caches_nothing_witness :
  cache (run demo_func [[1]; [1]; []; [2; 1]] (demo_new 0)) = [] ∧
  calls (run demo_func [[1]; [1]; []; [2; 1]] (demo_new 0))
    = [[1]; [1]; [2; 1]] ∧
  cache_info (run demo_func [[1]; [1]; []; [2; 1]] (demo_new 0))
    = (0, 3, 0, 0)%Z.
Proof.
  exact (nonpositive_capacity_caches_nothing demo_func 0 0%nat (demo_new 0)
           [[1]; [1]; []; [2; 1]] (Z.le_refl 0) eq_refl).
Defined.

Lemma misses_count_computations_witness :
  let st := run demo_func [[1]; [2]; [1]; [7]] (demo_new 2) in
  misses st = Z.of_nat (length (calls st)) ∧
  (Z.of_nat (length (cache st)) ≤ misses st)%Z.
Proof.
  apply (misses_count_computations demo_func).
  apply reachable_run, (reachable_new _ 2 0%nat). reflexivity.
Defined.


Lemma computed_value_is_reused_witness :
  ∃ st1 st2,
    inner demo_func [1; 2] (demo_new 2) = (Ok (Some 103), st1) ∧
    inner demo_func [1; 9] st1 = (Ok (Some 103), st2) ∧
    calls st2 = [[1; 2]] ∧
    world st2 = 1 ∧
    hits st2 = 1%Z ∧
    misses st2 = 1%Z.
Proof.
  exact (computed_value_is_reused demo_func 1 [2] [9] (demo_new 2) 103 1
           eq_refl ltac:(simpl; lia) eq_refl).
Defined.

Lemma exceptions_are_not_cached_witness :
  ∃ st1,
    inner demo_func [7] (demo_new 2) = (Raise (FuncError ()), st1) ∧
    od_mem 7 (cache st1) = false ∧
    calls (after demo_func [7; 1] st1) = [[7]; [7; 1]] ∧
    misses (after demo_func [7; 1] st1) = 2%Z ∧
    hits (after demo_func [7; 1] st1) = 0%Z.
Proof.
  exact (exceptions_are_not_cached demo_func 7 [] [1] (demo_new 2)
           (FuncError ()) 1 eq_refl eq_refl).
Defined.

Lemma hit_keeps_the_mapping_witness :
  (∀ k, od_lookup k (cache (after demo_func [1]
                              (run demo_func [[1]; [2]] (demo_new 2))))
        = od_lookup k (cache (run demo_func [[1]; [2]] (demo_new 2)))) ∧
  length (cache (after demo_func [1] (run demo_func [[1]; [2]] (demo_new 2))))
    = length (cache (run demo_func [[1]; [2]] (demo_new 2))).
Proof.
  apply hit_keeps_the_mapping; [|reflexivity].
  apply reachable_run, (reachable_new _ 2 0%nat). reflexivity.
Defined.

Lemma miss_evicts_only_the_oldest_witness :
  cache (after demo_func [3] (run demo_func [[1]; [2]] (demo_new 2)))
    = [(2, 102); (3, 103)] ∧
  od_lookup 1 (cache (after demo_func [3]
                        (run demo_func [[1]; [2]] (demo_new 2)))) = None ∧
  od_lookup 3 (cache (after demo_func [3]
                        (run demo_func [[1]; [2]] (demo_new 2)))) = Some 103 ∧
  (∀ k, k ≠ 1 → k ≠ 3 →
        od_lookup k (cache (after demo_func [3]
                              (run demo_func [[1]; [2]] (demo_new 2))))
        = od_lookup k (cache (run demo_func [[1]; [2]] (demo_new 2)))).
Proof.
  apply (miss_evicts_only_the_oldest demo_func 3 []
           (run demo_func [[1]; [2]] (demo_new 2)) 1 101 [(2, 102)] 103 3);
    try reflexivity.
  by apply (bool_decide_unpack _).
Defined.

Lemma fitting_keys_are_never_evicted_witness :
  od_lookup 1 (cache (run demo_func [[2]; [1]; [2; 5]; [7]]
                        (run demo_func [[1]] (demo_new 3)))) = Some 101.
Proof.
  apply (fitting_keys_are_never_evicted demo_func [1; 2; 7]).
  - by apply (bool_decide_unpack _).
  - intros k Hk. vm_compute in Hk.
    apply list_elem_of_singleton in Hk. subst. repeat constructor.
  - simpl. lia.
  - repeat (apply Forall_cons_2;
            [intros k Hk; simpl in Hk; simplify_eq;
             by apply (bool_decide_unpack _)|]).
    apply Forall_nil_2.
  - reflexivity.
Defined.

Lemma recently_used_key_survives_witness :
  od_lookup 1 (cache (run demo_func [[2]; [3]; [1]; [3; 2]; [2]; []]
                        (run demo_func [[4]; [1]] (demo_new 3)))) = Some 101.
Proof.
  apply (recently_used_key_survives demo_func 1 101 [2; 3]).
  - by apply (bool_decide_unpack _).
  - reflexivity.
  - intros k Hk. vm_compute in Hk. by apply elem_of_nil in Hk.
  - simpl. lia.
  - repeat (apply Forall_cons_2;
            [intros k Hk; simpl in Hk; simplify_eq;
             by apply (bool_decide_unpack _)|]).
    apply Forall_nil_2.
Defined.
